(** * Scoped.h: scope-bound resource owners of SumatraPDF

    A shallow embedding of [src/utils/Scoped.h].  Every class of the header
    is a record holding the class's fields; a member function takes the
    object ([this]) and returns the updated object, inside a small monad
    that threads the state of the platform (the C runtime heap, the COM
    runtime, GDI) and can fault.  Every call the header makes into the
    platform is appended to a trace, so that "how many times, with which
    argument and in which order" is a statement about that trace. *)

From stdpp Require Import gmap list.
From Stdlib Require Import ZArith.

Local Open Scope Z_scope.

(** ** Values *)

(** Pointers and handles are machine integers; [nullptr] and [NULL] are 0.
    [INVALID_HANDLE_VALUE] is [(HANDLE)-1] in the Windows headers. *)
Definition nullptr : Z := 0.
Definition NULL : Z := 0.
Definition INVALID_HANDLE_VALUE : Z := -1.

(** [if (p)] on a pointer. *)
Definition is_set (p : Z) : bool := negb (p =? 0).

(** [HRESULT] is a signed 32-bit status; the two macros test its sign. *)
Definition SUCCEEDED (hr : Z) : bool := 0 <=? hr.
Definition FAILED (hr : Z) : bool := hr <? 0.
Definition S_OK : Z := 0.
Definition E_NOINTERFACE : Z := -2147467262.

(** ** The platform *)

(** One constructor per platform entry point the header calls. *)
Inductive Call : Type :=
  | call_free (p : Z)
  | call_delete (p : Z)
  | call_Dup (src dst : Z)
  | call_EnterCriticalSection (cs : Z)
  | call_LeaveCriticalSection (cs : Z)
  | call_CloseHandle (h : Z)
  | call_Release (p : Z)
  | call_QueryInterface (unk iid : Z)
  | call_CoCreateInstance (clsid iid : Z)
  | call_DeleteObject (obj : Z)
  | call_DeleteDC (hdc : Z)
  | call_SelectObject (hdc obj : Z)
  | call_CoInitialize
  | call_CoUninitialize
  | call_OleInitialize
  | call_OleUninitialize
  | call_GdiplusStartup (suppressBackgroundThread : bool)
  | call_NotificationHook
  | call_NotificationUnhook (hookToken : Z)
  | call_GdiplusShutdown (token : Z).

(** The state of the platform.  [heap] maps the address of a readable
    zero-terminated text to its characters; [selected] maps a device
    context to the object currently selected into it.  The remaining fields
    are the answers the environment gives: what an object answers to a
    capability query and what the COM runtime answers to an instantiation
    request (a status and the value written to the output slot), and the
    tokens the GDI+ runtime hands out. *)
Record World : Type := mkWorld {
  trace : list Call;
  heap : gmap Z (list Z);
  selected : gmap Z Z;
  qi_answer : Z -> Z -> Z * Z;
  cocreate_answer : Z -> Z -> Z * Z;
  gdiplus_token : Z;
  gdiplus_hookToken : Z;
}.

Definition log (c : Call) (w : World) : World :=
  mkWorld (trace w ++ [c]) (heap w) (selected w) (qi_answer w)
          (cocreate_answer w) (gdiplus_token w) (gdiplus_hookToken w).

Definition set_heap (h : gmap Z (list Z)) (w : World) : World :=
  mkWorld (trace w) h (selected w) (qi_answer w)
          (cocreate_answer w) (gdiplus_token w) (gdiplus_hookToken w).

Definition set_selected (s : gmap Z Z) (w : World) : World :=
  mkWorld (trace w) (heap w) s (qi_answer w)
          (cocreate_answer w) (gdiplus_token w) (gdiplus_hookToken w).

(** ** Programs *)

Inductive Fault : Type :=
  | NullDereference
  | AssertionFailure
  | InvalidRead.

Inductive Outcome (A : Type) : Type :=
  | Done (a : A) (w : World)
  | Crash (f : Fault) (w : World).

Arguments Done {A} a w.
Arguments Crash {A} f w.

Definition Prog (A : Type) : Type := World -> Outcome A.

Definition ret {A : Type} (a : A) : Prog A := fun w => Done a w.

Definition bind {A B : Type} (m : Prog A) (k : A -> Prog B) : Prog B :=
  fun w =>
    match m w with
    | Done a w' => k a w'
    | Crash f w' => Crash f w'
    end.

Definition crash {A : Type} (f : Fault) : Prog A := fun w => Crash f w.

Definition emit (c : Call) : Prog unit := fun w => Done tt (log c w).

Declare Scope prog_scope.
Delimit Scope prog_scope with prog.
Bind Scope prog_scope with Prog.

Notation "'let!' x ':=' m 'in' k" := (bind m (fun x => k))
  (at level 10, x pattern, m at level 100, k at level 200) : prog_scope.
Notation "m '>>' k" := (bind m (fun _ => k))
  (at level 90, right associativity) : prog_scope.

Local Open Scope prog_scope.

(** The world a program stops in, and the calls it made from [w] on. *)
Definition world_of {A : Type} (o : Outcome A) : World :=
  match o with
  | Done _ w => w
  | Crash _ w => w
  end.

Definition calls_from {A : Type} (w : World) (o : Outcome A) : list Call :=
  drop (length (trace w)) (trace (world_of o)).

(** How many of the calls in [l] satisfy [f]. *)
Definition count (f : Call -> bool) (l : list Call) : nat :=
  length (filter (fun c => f c = true) l).

(** ** Platform entry points *)

(** C runtime [free]: the block at [p] stops being readable; for a null
    pointer no action occurs.  The call itself is recorded either way. *)
Definition free (p : Z) : Prog unit :=
  fun w =>
    Done tt (log (call_free p)
                 (set_heap (if is_set p then delete p (heap w) else heap w) w)).

(** The C++ delete-expression: on a null operand no destructor runs and
    nothing is given back; otherwise the object is destroyed. *)
Definition cpp_delete (p : Z) : Prog unit :=
  if is_set p then emit (call_delete p) else ret tt.

(** An address that is neither null nor in use. *)
Definition fresh_addr (h : gmap Z (list Z)) : Z := fresh ({[0]} ∪ dom h).

(** Modelled from the spec: [str::Dup] is declared in the string utilities,
    which are not part of the header.  The spec gives its contract as
    [duplicate(borrowedText) -> newOwnedCopy], defined only for non-empty
    input: the text at [s] is copied into a newly allocated block, whose
    address is returned.  Outside that contract (null or unreadable [s])
    the model faults. *)
Definition Dup (s : Z) : Prog Z :=
  fun w =>
    if is_set s then
      match heap w !! s with
      | Some txt =>
          let d := fresh_addr (heap w) in
          Done d (log (call_Dup s d) (set_heap (<[d := txt]> (heap w)) w))
      | None => Crash InvalidRead w
      end
    else Crash NullDereference w.

Definition EnterCriticalSection (cs : Z) : Prog unit :=
  emit (call_EnterCriticalSection cs).
Definition LeaveCriticalSection (cs : Z) : Prog unit :=
  emit (call_LeaveCriticalSection cs).

Definition CloseHandle (h : Z) : Prog unit := emit (call_CloseHandle h).

(** [p->Release()]: a virtual call through [p], which faults on null. *)
Definition Release (p : Z) : Prog unit :=
  if is_set p then emit (call_Release p) else crash NullDereference.

(** [unk->QueryInterface(&slot)]: a virtual call through [unk], which faults
    on null; otherwise the object answers with a status and the value it
    leaves in the slot. *)
Definition QueryInterface (unk iid : Z) : Prog (Z * Z) :=
  if is_set unk then
    fun w => Done (qi_answer w unk iid) (log (call_QueryInterface unk iid) w)
  else crash NullDereference.

(** [CoCreateInstance(clsid, nullptr, CLSCTX_ALL, IID_PPV_ARGS(&slot))]:
    returns a status and what it leaves in the slot, which on failure is
    [NULL] (the documented behaviour of the COM runtime). *)
Definition CoCreateInstance (clsid iid : Z) : Prog (Z * Z) :=
  fun w =>
    let '(hr, out) := cocreate_answer w clsid iid in
    Done (hr, if SUCCEEDED hr then out else NULL)
         (log (call_CoCreateInstance clsid iid) w).

Definition DeleteObject (obj : Z) : Prog unit := emit (call_DeleteObject obj).
Definition DeleteDC (hdc : Z) : Prog unit := emit (call_DeleteDC hdc).

(** GDI [SelectObject]: selects [obj] into the device context and returns
    the object it replaces; on a handle that is not a device context it
    selects nothing and returns [NULL]. *)
Definition SelectObject (hdc obj : Z) : Prog Z :=
  fun w =>
    match selected w !! hdc with
    | Some prev =>
        Done prev (log (call_SelectObject hdc obj)
                       (set_selected (<[hdc := obj]> (selected w)) w))
    | None => Done NULL (log (call_SelectObject hdc obj) w)
    end.

Definition CoInitialize : Prog unit := emit call_CoInitialize.
Definition CoUninitialize : Prog unit := emit call_CoUninitialize.
Definition OleInitialize : Prog unit := emit call_OleInitialize.
Definition OleUninitialize : Prog unit := emit call_OleUninitialize.

(** [GdiplusStartup(&token, &si, &so)] hands out the runtime's token;
    [so.NotificationHook(&hookToken)] hands out the hook's token. *)
Definition GdiplusStartup (suppressBackgroundThread : bool) : Prog Z :=
  fun w => Done (gdiplus_token w)
                (log (call_GdiplusStartup suppressBackgroundThread) w).
Definition NotificationHook : Prog Z :=
  fun w => Done (gdiplus_hookToken w) (log call_NotificationHook w).
Definition NotificationUnhook (hookToken : Z) : Prog unit :=
  emit (call_NotificationUnhook hookToken).
Definition GdiplusShutdown (token : Z) : Prog unit :=
  emit (call_GdiplusShutdown token).

(** Modelled from the spec: the [CrashIf] macro is defined in the base
    utilities, which are not part of the header.  The spec treats the
    violated precondition as a fatal assertion, never as a propagated error
    value: the program stops when the condition holds. *)
Definition CrashIf (cond : bool) : Prog unit :=
  if cond then crash AssertionFailure else ret tt.

(** ** The classes of the header *)

(** [template <typename T> class ScopedMem]: memory from [malloc]. *)
Module ScopedMem.
Record t : Type := mk { ptr : Z }.

Definition ctor : Prog t := ret (mk nullptr).
Definition ctor_from (ptr : Z) : Prog t := ret (mk ptr).
Definition dtor (this : t) : Prog unit := free (ptr this).

Definition Set_ (this : t) (newPtr : Z) : Prog t :=
  free (ptr this) >>
  ret (mk newPtr).

Definition Get (this : t) : Z := ptr this.

Definition StealData (this : t) : Prog (Z * t) :=
  let tmp := ptr this in
  let this := mk nullptr in
  ret (tmp, this).
End ScopedMem.

(** [template <class T> class ScopedPtr]: an object from [new]. *)
Module ScopedPtr.
Record t : Type := mk { obj : Z }.

Definition ctor : Prog t := ret (mk nullptr).
Definition ctor_from (obj : Z) : Prog t := ret (mk obj).
Definition dtor (this : t) : Prog unit := cpp_delete (obj this).

Definition Detach (this : t) : Prog (Z * t) :=
  let tmp := obj this in
  let this := mk nullptr in
  ret (tmp, this).

Definition Get (this : t) : Z := obj this.

Definition assign (this : t) (newObj : Z) : Prog (Z * t) :=
  cpp_delete (obj this) >>
  let this := mk newObj in
  ret (obj this, this).
End ScopedPtr.

(** [template <typename T> class AutoFreeStr : public ScopedMem<T>]. *)
Module AutoFreeStr.
Definition t : Type := ScopedMem.t.

Definition ctor : Prog t :=
  let! this := ScopedMem.ctor in
  ret (ScopedMem.mk nullptr).
Definition ctor_from (ptr : Z) : Prog t :=
  let! this := ScopedMem.ctor in
  ret (ScopedMem.mk ptr).
Definition dtor (this : t) : Prog unit := ScopedMem.dtor this.

Definition SetCopy (this : t) (newPtr : Z) : Prog t :=
  free (ScopedMem.ptr this) >>
  let this := ScopedMem.mk nullptr in
  if is_set newPtr then
    let! d := Dup newPtr in
    ret (ScopedMem.mk d)
  else ret this.
End AutoFreeStr.

Module ScopedCritSec.
Record t : Type := mk { cs : Z }.

Definition ctor_from (cs : Z) : Prog t :=
  EnterCriticalSection cs >>
  ret (mk cs).
Definition dtor (this : t) : Prog unit := LeaveCriticalSection (cs this).
End ScopedCritSec.

Module ScopedHandle.
Record t : Type := mk { handle : Z }.

Definition ctor_from (handle : Z) : Prog t := ret (mk handle).
Definition dtor (this : t) : Prog unit := CloseHandle (handle this).
Definition Get (this : t) : Z := handle this.
Definition IsValid (this : t) : bool :=
  negb (handle this =? NULL) && negb (handle this =? INVALID_HANDLE_VALUE).
End ScopedHandle.

(** [template <class T> class ScopedComPtr]; [iid] is [__uuidof(T)]. *)
Module ScopedComPtr.
Record t : Type := mk { ptr : Z }.

Definition ctor : Prog t := ret (mk nullptr).
Definition ctor_from (ptr : Z) : Prog t := ret (mk ptr).
Definition dtor (this : t) : Prog unit :=
  if is_set (ptr this) then Release (ptr this) else ret tt.

(** [Create], with the assertion macro as a parameter. *)
Definition Create_with (crashIf : bool -> Prog unit)
    (iid : Z) (this : t) (clsid : Z) : Prog (bool * t) :=
  crashIf (is_set (ptr this)) >>
  if is_set (ptr this) then ret (false, this)
  else
    let! r := CoCreateInstance clsid iid in
    let '(hr, out) := r in
    ret (SUCCEEDED hr, mk out).

Definition Create : Z -> t -> Z -> Prog (bool * t) := Create_with CrashIf.

Definition Get (this : t) : Z := ptr this.

Definition assign (this : t) (newPtr : Z) : Prog (Z * t) :=
  (if is_set (ptr this) then Release (ptr this) else ret tt) >>
  let this := mk newPtr in
  ret (ptr this, this).
End ScopedComPtr.

(** [template <class T> class ScopedComQIPtr]; [iid] is [__uuidof(T)]. *)
Module ScopedComQIPtr.
Record t : Type := mk { ptr : Z }.

Definition ctor : Prog t := ret (mk nullptr).
Definition ctor_query (iid : Z) (unk : Z) : Prog t :=
  let! r := QueryInterface unk iid in
  let '(hr, out) := r in
  let this := mk out in
  if FAILED hr then ret (mk nullptr) else ret this.
Definition dtor (this : t) : Prog unit :=
  if is_set (ptr this) then Release (ptr this) else ret tt.

(** [Create], with the assertion macro as a parameter. *)
Definition Create_with (crashIf : bool -> Prog unit)
    (iid : Z) (this : t) (clsid : Z) : Prog (bool * t) :=
  crashIf (is_set (ptr this)) >>
  if is_set (ptr this) then ret (false, this)
  else
    let! r := CoCreateInstance clsid iid in
    let '(hr, out) := r in
    ret (SUCCEEDED hr, mk out).

Definition Create : Z -> t -> Z -> Prog (bool * t) := Create_with CrashIf.

Definition assign_query (iid : Z) (this : t) (newUnk : Z) : Prog (Z * t) :=
  (if is_set (ptr this) then Release (ptr this) else ret tt) >>
  let! r := QueryInterface newUnk iid in
  let '(hr, out) := r in
  let this := mk out in
  let this := if FAILED hr then mk nullptr else this in
  ret (ptr this, this).

Definition Get (this : t) : Z := ptr this.

Definition assign (this : t) (newPtr : Z) : Prog (Z * t) :=
  (if is_set (ptr this) then Release (ptr this) else ret tt) >>
  let this := mk newPtr in
  ret (ptr this, this).
End ScopedComQIPtr.

(** [template <typename T> class ScopedGdiObj]: fonts, pens, brushes. *)
Module ScopedGdiObj.
Record t : Type := mk { obj : Z }.

Definition ctor_from (obj : Z) : Prog t := ret (mk obj).
Definition dtor (this : t) : Prog unit := DeleteObject (obj this).
Definition Get (this : t) : Z := obj this.
End ScopedGdiObj.

Module ScopedHDC.
Record t : Type := mk { hdc : Z }.

Definition ctor_from (hdc : Z) : Prog t := ret (mk hdc).
Definition dtor (this : t) : Prog unit := DeleteDC (hdc this).
Definition Get (this : t) : Z := hdc this.
End ScopedHDC.

Module ScopedHdcSelect.
Record t : Type := mk { hdc : Z; prev : Z }.

Definition ctor_from (hdc obj : Z) : Prog t :=
  let! prev := SelectObject hdc obj in
  ret (mk hdc prev).
Definition dtor (this : t) : Prog unit :=
  SelectObject (hdc this) (prev this) >>
  ret tt.
End ScopedHdcSelect.

Module ScopedCom.
Record t : Type := mk { }.

Definition ctor : Prog t := CoInitialize >> ret mk.
Definition dtor (this : t) : Prog unit := CoUninitialize.
End ScopedCom.

Module ScopedOle.
Record t : Type := mk { }.

Definition ctor : Prog t := OleInitialize >> ret mk.
Definition dtor (this : t) : Prog unit := OleUninitialize.
End ScopedOle.

(** [hookToken] stays indeterminate unless the hook is installed. *)
Module ScopedGdiPlus.
Record t : Type := mk { token : Z; hookToken : option Z; noBgThread : bool }.

Definition ctor_from (inWinMain : bool) : Prog t :=
  let noBgThread := inWinMain in
  let! token := GdiplusStartup noBgThread in
  if noBgThread then
    let! hookToken := NotificationHook in
    ret (mk token (Some hookToken) noBgThread)
  else ret (mk token None noBgThread).


Definition dtor (this : t) : Prog unit :=
  (if noBgThread this then
     match hookToken this with
     | Some h => NotificationUnhook h
     | None => crash InvalidRead
     end
   else ret tt) >>
  GdiplusShutdown (token this).
End ScopedGdiPlus.

(** ** Scopes and sample worlds *)

(** A block that declares one object: construct it, run the body on it,
    destroy it at the closing brace. *)
Definition scope {S A : Type} (ctor : Prog S) (body : S -> Prog (A * S))
    (dtor : S -> Prog unit) : Prog A :=
  let! this := ctor in
  let! r := body this in
  dtor (snd r) >>
  ret (fst r).

(** The body that does nothing with the object. *)
Definition skip {S : Type} (this : S) : Prog (unit * S) := ret (tt, this).

(** [p], started in [w], returns [a] after making exactly the calls [l],
    in that order. *)
Definition makes_calls {A : Type} (p : Prog A) (w : World) (a : A)
    (l : list Call) : Prop :=
  exists w', p w = Done a w' /\ trace w' = trace w ++ l.

(** The calls that give a resource back to the platform. *)
Definition is_release (c : Call) : bool :=
  match c with
  | call_free _ | call_delete _ | call_LeaveCriticalSection _
  | call_CloseHandle _ | call_Release _ | call_DeleteObject _
  | call_DeleteDC _ | call_CoUninitialize | call_OleUninitialize
  | call_GdiplusShutdown _ => true
  | _ => false
  end.

(** A world in which nothing has been called yet: a text at address 4096,
    a device context 7 with object 70 selected, an object 500 that offers
    interface 1 (as pointer 501) and no other, and a COM runtime that knows
    class 9 with interface 1 only. *)
Definition sample_world : World :=
  mkWorld [] {[ 4096 := [104; 105] ]} {[ 7 := 70 ]}
    (fun unk iid =>
       if (unk =? 500) && (iid =? 1) then (S_OK, 501) else (E_NOINTERFACE, 77))
    (fun clsid iid =>
       if (clsid =? 9) && (iid =? 1) then (S_OK, 900) else (E_NOINTERFACE, 0))
    11 12.

(** Two selection guards on one device context, the second in a block
    nested inside the first one's. *)
Definition nested_selections (hdc a b : Z) : Prog unit :=
  scope (ScopedHdcSelect.ctor_from hdc a)
    (fun outer =>
       scope (ScopedHdcSelect.ctor_from hdc b) skip ScopedHdcSelect.dtor >>
       ret (tt, outer))
    ScopedHdcSelect.dtor.

(** ** Larger programs *)

(** A body that uses the platform and leaves the object alone. *)
Definition inside {S A : Type} (body : Prog A) (this : S) : Prog (A * S) :=
  let! a := body in
  ret (a, this).

(** A body that is one member call returning nothing. *)
Definition void {S : Type} (m : S -> Prog S) (this : S) : Prog (unit * S) :=
  let! this' := m this in
  ret (tt, this').

(** The world after the calls [l] have been recorded. *)
Definition logs (l : list Call) (w : World) : World :=
  mkWorld (trace w ++ l) (heap w) (selected w) (qi_answer w)
          (cocreate_answer w) (gdiplus_token w) (gdiplus_hookToken w).

(** [body] run with the critical sections [css] held, each guard declared
    in a block nested inside the previous one's. *)
Fixpoint with_locks {A : Type} (css : list Z) (body : Prog A) : Prog A :=
  match css with
  | [] => body
  | cs :: rest =>
      scope (ScopedCritSec.ctor_from cs) (inside (with_locks rest body))
        ScopedCritSec.dtor
  end.

(** One selection guard per object of [objs] on the same device context,
    each declared in a block nested inside the previous one's. *)
Fixpoint nested_guards (hdc : Z) (objs : list Z) : Prog unit :=
  match objs with
  | [] => ret tt
  | obj :: rest =>
      scope (ScopedHdcSelect.ctor_from hdc obj)
        (inside (nested_guards hdc rest)) ScopedHdcSelect.dtor
  end.

(** Two selection guards destroyed in the order they were constructed, as
    happens when they are not block-scoped. *)
Definition guards_out_of_order (hdc a b : Z) : Prog unit :=
  let! g1 := ScopedHdcSelect.ctor_from hdc a in
  let! g2 := ScopedHdcSelect.ctor_from hdc b in
  ScopedHdcSelect.dtor g1 >>
  ScopedHdcSelect.dtor g2.

(** [m.Set(v)] for each [v] of [vs], in order. *)
Fixpoint set_all (this : ScopedMem.t) (vs : list Z) : Prog ScopedMem.t :=
  match vs with
  | [] => ret this
  | v :: rest =>
      let! this' := ScopedMem.Set_ this v in
      set_all this' rest
  end.

(** [o = v] for each [v] of [vs], in order, for an owner with an
    assignment operator. *)
Fixpoint assign_all {S : Type} (assign : S -> Z -> Prog (Z * S))
    (this : S) (vs : list Z) : Prog S :=
  match vs with
  | [] => ret this
  | v :: rest =>
      let! r := assign this v in
      assign_all assign (snd r) rest
  end.

(** A block is handed from one memory owner to a second one declared in a
    nested block: [b.Set(a.StealData())]. *)
Definition transfer (p : Z) : Prog unit :=
  scope (ScopedMem.ctor_from p)
    (fun a =>
       let! a' :=
         scope ScopedMem.ctor
           (fun b =>
              let! r := ScopedMem.StealData a in
              let! b' := ScopedMem.Set_ b (fst r) in
              ret (snd r, b'))
           ScopedMem.dtor in
       ret (tt, a'))
    ScopedMem.dtor.

(** The heap once each pointer of [ps] has been passed to [free]. *)
Definition heap_after_frees (ps : list Z) (h : gmap Z (list Z))
    : gmap Z (list Z) :=
  foldl (fun h p => if is_set p then delete p h else h) h ps.

(** The values of [vs] that are not null, in order. *)
Definition set_values (vs : list Z) : list Z := List.filter is_set vs.

(** * Properties *)

Lemma calls_from_app {A : Type} (o : Outcome A) (w : World) (l : list Call) :
  trace (world_of o) = trace w ++ l -> calls_from w o = l.
Proof. unfold calls_from. intros ->. apply drop_app_length. Qed.

Lemma is_set_true (p : Z) : is_set p = true <-> p ≠ 0.
Proof. unfold is_set. rewrite negb_true_iff, Z.eqb_neq. tauto. Qed.

(** Unfolds a program down to the trace it leaves. *)
Ltac run :=
  unfold makes_calls, scope, skip, bind, ret, crash, emit, free, cpp_delete,
    Release, CloseHandle, DeleteObject, DeleteDC, EnterCriticalSection,
    LeaveCriticalSection, CoInitialize, CoUninitialize, OleInitialize,
    OleUninitialize, GdiplusShutdown, NotificationUnhook, CrashIf in *;
  simpl in *.

Lemma makes_calls_from {A : Type} (p : Prog A) (w : World) (a : A)
    (l : list Call) :
  makes_calls p w a l -> calls_from w (p w) = l.
Proof. intros (w' & -> & Htr). by apply calls_from_app. Qed.

(** Closes a [makes_calls] goal once the program has been unfolded. *)
Ltac traced :=
  eexists; split; [reflexivity |];
  simpl; rewrite ?app_nil_r, <- ?app_assoc; reflexivity.

(** ** Destruction *)

(** C1 (as stated) fails: an empty memory owner and a handle owner holding
    the null handle both invoke their release primitive when they go out of
    scope, so the number of release invocations of an empty wrapper is not
    zero. *)
Lemma empty_wrapper_destruction_invokes_release :
  calls_from sample_world
    (scope ScopedMem.ctor skip ScopedMem.dtor sample_world)
    = [call_free nullptr]
  /\ count is_release
       (calls_from sample_world
          (scope ScopedMem.ctor skip ScopedMem.dtor sample_world)) = 1%nat
  /\ count is_release
       (calls_from sample_world
          (scope (ScopedHandle.ctor_from NULL) skip ScopedHandle.dtor
             sample_world)) = 1%nat.
Proof. repeat split. Qed.

(** C1 (as amended): what each destructor calls.  The owners of COM
    pointers call [Release] exactly once when the pointer is set and call
    nothing when it is null, and the object owner destroys its object
    exactly once when set and does nothing when null.  The memory, handle,
    GDI object and device context owners call their release primitive
    exactly once with the held value whatever that value is, the empty
    sentinel included; for the memory owner holding null that one call
    leaves the heap as it was.  The guards (critical section, selection,
    COM, OLE, GDI+) have no empty state and undo their acquisition exactly
    once. *)
Theorem destruction_release_calls (w : World) :
  (forall this, makes_calls (ScopedMem.dtor this) w tt
                  [call_free (ScopedMem.ptr this)])
  /\ (forall this, makes_calls (AutoFreeStr.dtor this) w tt
                     [call_free (ScopedMem.ptr this)])
  /\ ScopedMem.dtor (ScopedMem.mk nullptr) w
       = Done tt (log (call_free nullptr) w)
  /\ (forall this, makes_calls (ScopedHandle.dtor this) w tt
                     [call_CloseHandle (ScopedHandle.handle this)])
  /\ (forall this, makes_calls (ScopedGdiObj.dtor this) w tt
                     [call_DeleteObject (ScopedGdiObj.obj this)])
  /\ (forall this, makes_calls (ScopedHDC.dtor this) w tt
                     [call_DeleteDC (ScopedHDC.hdc this)])
  /\ (forall this, makes_calls (ScopedPtr.dtor this) w tt
                     (if is_set (ScopedPtr.obj this)
                      then [call_delete (ScopedPtr.obj this)] else []))
  /\ (forall this, makes_calls (ScopedComPtr.dtor this) w tt
                     (if is_set (ScopedComPtr.ptr this)
                      then [call_Release (ScopedComPtr.ptr this)] else []))
  /\ (forall this, makes_calls (ScopedComQIPtr.dtor this) w tt
                     (if is_set (ScopedComQIPtr.ptr this)
                      then [call_Release (ScopedComQIPtr.ptr this)] else []))
  /\ (forall this, makes_calls (ScopedCritSec.dtor this) w tt
                     [call_LeaveCriticalSection (ScopedCritSec.cs this)])
  /\ (forall this, makes_calls (ScopedHdcSelect.dtor this) w tt
                     [call_SelectObject (ScopedHdcSelect.hdc this)
                                        (ScopedHdcSelect.prev this)])
  /\ (forall this, makes_calls (ScopedCom.dtor this) w tt [call_CoUninitialize])
  /\ (forall this, makes_calls (ScopedOle.dtor this) w tt [call_OleUninitialize])
  /\ (forall inWinMain,
        makes_calls
          (scope (ScopedGdiPlus.ctor_from inWinMain) skip ScopedGdiPlus.dtor)
          w tt
          (call_GdiplusStartup inWinMain
             :: (if inWinMain
                 then [call_NotificationHook;
                       call_NotificationUnhook (gdiplus_hookToken w)]
                 else [])
             ++ [call_GdiplusShutdown (gdiplus_token w)])).
Proof.
  repeat split.
  - intros [p]; unfold ScopedMem.dtor; run; traced.
  - intros [p]; unfold AutoFreeStr.dtor, ScopedMem.dtor; run; traced.
  - intros [h]; unfold ScopedHandle.dtor; run; traced.
  - intros [o]; unfold ScopedGdiObj.dtor; run; traced.
  - intros [h]; unfold ScopedHDC.dtor; run; traced.
  - intros [o]; unfold ScopedPtr.dtor; run; destruct (is_set o); traced.
  - intros [p]; unfold ScopedComPtr.dtor; run; destruct (is_set p); traced.
  - intros [p]; unfold ScopedComQIPtr.dtor; run; destruct (is_set p); traced.
  - intros [c]; unfold ScopedCritSec.dtor; run; traced.
  - intros [h p]; unfold ScopedHdcSelect.dtor, SelectObject; run.
    destruct (selected w !! h); traced.
  - intros []; unfold ScopedCom.dtor; run; traced.
  - intros []; unfold ScopedOle.dtor; run; traced.
  - intros [|]; unfold ScopedGdiPlus.ctor_from, ScopedGdiPlus.dtor,
      GdiplusStartup, NotificationHook; run; traced.
Qed.


(** C2 (as stated) fails: a handle owner built from the invalid-handle
    sentinel passes that sentinel to the close primitive when it goes out
    of scope. *)
Lemma invalid_handle_is_closed :
  calls_from sample_world
    (scope (ScopedHandle.ctor_from INVALID_HANDLE_VALUE) skip
       ScopedHandle.dtor sample_world)
    = [call_CloseHandle INVALID_HANDLE_VALUE]
  /\ ScopedHandle.IsValid (ScopedHandle.mk INVALID_HANDLE_VALUE) = false.
Proof. split; reflexivity. Qed.

(** C2 (as amended): the handle owner's destruction invokes the close
    primitive exactly once with the held handle, whatever the handle is;
    the sentinels are told apart only by [IsValid], which holds exactly
    when the handle is neither null nor the invalid-handle value. *)
Theorem handle_closed_unconditionally (h : Z) (w : World) :
  makes_calls (scope (ScopedHandle.ctor_from h) skip ScopedHandle.dtor) w tt
    [call_CloseHandle h]
  /\ (ScopedHandle.IsValid (ScopedHandle.mk h) = true
      <-> h ≠ NULL /\ h ≠ INVALID_HANDLE_VALUE).
Proof.
  split.
  - unfold ScopedHandle.ctor_from, ScopedHandle.dtor; run; traced.
  - unfold ScopedHandle.IsValid; simpl.
    rewrite andb_true_iff, !negb_true_iff, !Z.eqb_neq. tauto.
Qed.

(** ** Reassignment *)

(** C4: reassigning an owner that holds [old] (not null) releases [old]
    exactly once and makes no other call; the owner then holds exactly the
    new value.  The release comes first: each reassignment is the
    destructor's release of the current object followed by the store, so
    the value released is the previous one and never the new one.  For the
    memory owner the released block is gone from the heap. *)
Theorem reassignment_releases_previous (old new : Z) (w : World) :
  old ≠ nullptr ->
  makes_calls (ScopedMem.Set_ (ScopedMem.mk old) new) w
    (ScopedMem.mk new) [call_free old]
  /\ heap (world_of (ScopedMem.Set_ (ScopedMem.mk old) new w))
       = delete old (heap w)
  /\ makes_calls (ScopedPtr.assign (ScopedPtr.mk old) new) w
       (new, ScopedPtr.mk new) [call_delete old]
  /\ makes_calls (ScopedComPtr.assign (ScopedComPtr.mk old) new) w
       (new, ScopedComPtr.mk new) [call_Release old]
  /\ makes_calls (ScopedComQIPtr.assign (ScopedComQIPtr.mk old) new) w
       (new, ScopedComQIPtr.mk new) [call_Release old]
  /\ ScopedMem.Set_ (ScopedMem.mk old) new
       = (ScopedMem.dtor (ScopedMem.mk old) >> ret (ScopedMem.mk new))
  /\ ScopedPtr.assign (ScopedPtr.mk old) new
       = (ScopedPtr.dtor (ScopedPtr.mk old) >> ret (new, ScopedPtr.mk new))
  /\ ScopedComPtr.assign (ScopedComPtr.mk old) new
       = (ScopedComPtr.dtor (ScopedComPtr.mk old)
          >> ret (new, ScopedComPtr.mk new))
  /\ ScopedComQIPtr.assign (ScopedComQIPtr.mk old) new
       = (ScopedComQIPtr.dtor (ScopedComQIPtr.mk old)
          >> ret (new, ScopedComQIPtr.mk new)).
Proof.
  intros Hold. apply is_set_true in Hold as Hset.
  repeat split.
  - unfold ScopedMem.Set_; run; traced.
  - unfold ScopedMem.Set_; run. by rewrite Hset.
  - unfold ScopedPtr.assign; run. rewrite Hset. traced.
  - unfold ScopedComPtr.assign; run. rewrite Hset. traced.
  - unfold ScopedComQIPtr.assign; run. rewrite Hset. traced.
Qed.

Lemma reassignment_releases_previous_witness :
  4096 ≠ nullptr
  /\ makes_calls (ScopedMem.Set_ (ScopedMem.mk 4096) 8192) sample_world
       (ScopedMem.mk 8192) [call_free 4096]
  /\ heap (world_of (ScopedMem.Set_ (ScopedMem.mk 4096) 8192 sample_world))
       = delete 4096 (heap sample_world).
Proof.
  split; [unfold nullptr; lia |].
  split; apply (reassignment_releases_previous 4096 8192 sample_world);
    unfold nullptr; lia.
Defined.

(** X15: the query assignment also releases the previous pointer exactly
    once before it queries; what it stores is the query's answer, or null
    when the query fails. *)
Lemma query_assignment_releases_previous (iid old unk : Z) (w : World) :
  old ≠ nullptr -> unk ≠ nullptr ->
  makes_calls (ScopedComQIPtr.assign_query iid (ScopedComQIPtr.mk old) unk) w
    (let '(hr, out) := qi_answer w unk iid in
     if FAILED hr then (nullptr, ScopedComQIPtr.mk nullptr)
     else (out, ScopedComQIPtr.mk out))
    [call_Release old; call_QueryInterface unk iid].
Proof.
  intros Hold%is_set_true Hunk%is_set_true.
  unfold ScopedComQIPtr.assign_query, QueryInterface; run.
  rewrite Hold, Hunk; simpl.
  destruct (qi_answer w unk iid) as [hr out]; destruct (FAILED hr); traced.
Qed.

(** ** Detachment *)

(** C5 (as stated) fails: after its block has been stolen, the memory owner
    still invokes its release primitive when it goes out of scope. *)
Lemma emptied_memory_owner_invokes_free :
  makes_calls
    (scope (ScopedMem.ctor_from 4096) ScopedMem.StealData ScopedMem.dtor)
    sample_world 4096 [call_free nullptr]
  /\ count is_release
       (calls_from sample_world
          (scope (ScopedMem.ctor_from 4096) ScopedMem.StealData ScopedMem.dtor
             sample_world)) = 1%nat.
Proof. split; [eexists; split; reflexivity | reflexivity]. Qed.

(** C5 (as amended): stealing returns exactly the value that was held,
    leaves the wrapper empty and calls nothing.  The destruction that
    follows releases nothing: the object owner makes no call at all; the
    memory owner calls [free] exactly once, with the null pointer, which
    leaves the heap as it was.  The stolen value is never released. *)
Theorem steal_detaches (p : Z) (w : World) :
  ScopedMem.StealData (ScopedMem.mk p) w = Done (p, ScopedMem.mk nullptr) w
  /\ ScopedPtr.Detach (ScopedPtr.mk p) w = Done (p, ScopedPtr.mk nullptr) w
  /\ makes_calls
       (scope (ScopedPtr.ctor_from p) ScopedPtr.Detach ScopedPtr.dtor) w p []
  /\ makes_calls
       (scope (ScopedMem.ctor_from p) ScopedMem.StealData ScopedMem.dtor)
       w p [call_free nullptr]
  /\ heap (world_of
             (scope (ScopedMem.ctor_from p) ScopedMem.StealData ScopedMem.dtor
                w)) = heap w.
Proof.
  repeat split.
  - unfold ScopedPtr.ctor_from, ScopedPtr.Detach, ScopedPtr.dtor; run; traced.
  - unfold ScopedMem.ctor_from, ScopedMem.StealData, ScopedMem.dtor; run;
      traced.
Qed.

(** ** Duplication *)

Lemma fresh_addr_not_null (h : gmap Z (list Z)) : fresh_addr h ≠ nullptr.
Proof.
  unfold fresh_addr, nullptr. intros Heq.
  pose proof (is_fresh ({[0]} ∪ dom h)) as Hfresh.
  rewrite Heq in Hfresh. set_solver.
Qed.

Lemma fresh_addr_unused (h : gmap Z (list Z)) : h !! fresh_addr h = None.
Proof.
  unfold fresh_addr. apply not_elem_of_dom.
  pose proof (is_fresh ({[0]} ∪ dom h)) as Hfresh. set_solver.
Qed.

(** [SetCopy] on readable text other than the held buffer: the heap
    afterwards is the heap without the released block, plus the copy. *)
Lemma SetCopy_copy (old newPtr : Z) (txt : list Z) (w : World) :
  newPtr ≠ nullptr ->
  newPtr ≠ old ->
  heap w !! newPtr = Some txt ->
  exists d w',
    AutoFreeStr.SetCopy (ScopedMem.mk old) newPtr w = Done (ScopedMem.mk d) w'
    /\ trace w' = trace w ++ [call_free old; call_Dup newPtr d]
    /\ d ≠ nullptr
    /\ d ≠ newPtr
    /\ (if is_set old then delete old (heap w) else heap w) !! d = None
    /\ heap w'
       = <[d := txt]> (if is_set old then delete old (heap w) else heap w).
Proof.
  intros Hnull Hother Hsrc.
  set (h1 := if is_set old then delete old (heap w) else heap w).
  assert (Hsrc1 : h1 !! newPtr = Some txt).
  { subst h1. destruct (is_set old); [| done]. by rewrite lookup_delete_ne. }
  assert (Hd : fresh_addr h1 ≠ newPtr).
  { intros Heq. pose proof (fresh_addr_unused h1) as Hun.
    rewrite Heq, Hsrc1 in Hun. discriminate. }
  exists (fresh_addr h1). eexists.
  unfold AutoFreeStr.SetCopy, bind, Dup, free, ret.
  apply is_set_true in Hnull as ->.
  cbn [heap log set_heap world_of ScopedMem.ptr trace]. fold h1. rewrite Hsrc1.
  split; [reflexivity |]. cbn [heap log set_heap world_of trace].
  split; [by rewrite <- app_assoc |].
  split; [apply fresh_addr_not_null |].
  split; [exact Hd |].
  split; [apply fresh_addr_unused | reflexivity].
Qed.




(** X16: [SetCopy] tests its argument for null, not for length.  Given a
    non-null pointer to readable text of length zero that is not the
    buffer it holds, it releases the held buffer and stores the address of
    a new block that holds text of length zero: the owner is not empty
    afterwards, and the source is still readable. *)
Lemma SetCopy_of_zero_length_text (this : AutoFreeStr.t) (newPtr : Z)
    (w : World) :
  newPtr ≠ nullptr ->
  newPtr ≠ ScopedMem.ptr this ->
  heap w !! newPtr = Some [] ->
  exists d w',
    AutoFreeStr.SetCopy this newPtr w = Done (ScopedMem.mk d) w'
    /\ trace w' = trace w ++ [call_free (ScopedMem.ptr this);
                              call_Dup newPtr d]
    /\ d ≠ nullptr
    /\ d ≠ newPtr
    /\ heap w' !! d = Some []
    /\ heap w' !! newPtr = Some [].
Proof.
  intros H1 H2 H3. destruct this as [old]; simpl in *.
  destruct (SetCopy_copy old newPtr [] w H1 H2 H3)
    as (d & w' & Hrun & Htr & Hd0 & Hdsrc & _ & Hheap).
  exists d, w'. rewrite Hheap.
  split; [exact Hrun |]. split; [exact Htr |]. split; [exact Hd0 |].
  split; [exact Hdsrc |]. split; [apply lookup_insert_eq |].
  rewrite lookup_insert_ne by done.
  destruct (is_set old); [| done]. by rewrite lookup_delete_ne.
Qed.

(** ** Capability queries *)

(** C7: a querying owner built from an interface whose query fails is
    empty, whatever the failed query left in the slot.  Construction
    completes normally (the failure is no fault), and when the owner goes
    out of scope nothing is released: the query is the only call made. *)
Theorem failed_query_yields_empty_owner (iid unk : Z) (w : World) :
  unk ≠ nullptr ->
  FAILED (fst (qi_answer w unk iid)) = true ->
  ScopedComQIPtr.ctor_query iid unk w
    = Done (ScopedComQIPtr.mk nullptr) (log (call_QueryInterface unk iid) w)
  /\ makes_calls
       (scope (ScopedComQIPtr.ctor_query iid unk) skip ScopedComQIPtr.dtor)
       w tt [call_QueryInterface unk iid]
  /\ count is_release
       (calls_from w
          (scope (ScopedComQIPtr.ctor_query iid unk) skip ScopedComQIPtr.dtor
             w)) = 0%nat.
Proof.
  intros Hunk%is_set_true Hfail.
  assert (Hctor : ScopedComQIPtr.ctor_query iid unk w
            = Done (ScopedComQIPtr.mk nullptr)
                (log (call_QueryInterface unk iid) w)).
  { unfold ScopedComQIPtr.ctor_query, QueryInterface, bind. rewrite Hunk.
    destruct (qi_answer w unk iid) as [hr out]; simpl in *.
    by rewrite Hfail. }
  assert (Hscope : makes_calls
            (scope (ScopedComQIPtr.ctor_query iid unk) skip
               ScopedComQIPtr.dtor) w tt [call_QueryInterface unk iid]).
  { unfold makes_calls, scope, bind. rewrite Hctor. simpl. eauto. }
  repeat split; [exact Hctor | exact Hscope |].
  by rewrite (makes_calls_from _ _ _ _ Hscope).
Qed.

Lemma failed_query_yields_empty_owner_witness :
  500 ≠ nullptr
  /\ FAILED (fst (qi_answer sample_world 500 2)) = true
  /\ snd (qi_answer sample_world 500 2) = 77
  /\ ScopedComQIPtr.ctor_query 2 500 sample_world
       = Done (ScopedComQIPtr.mk nullptr)
           (log (call_QueryInterface 500 2) sample_world)
  /\ makes_calls
       (scope (ScopedComQIPtr.ctor_query 2 500) skip ScopedComQIPtr.dtor)
       sample_world tt [call_QueryInterface 500 2]
  /\ count is_release
       (calls_from sample_world
          (scope (ScopedComQIPtr.ctor_query 2 500) skip ScopedComQIPtr.dtor
             sample_world)) = 0%nat.
Proof.
  split; [unfold nullptr; lia |]. split; [reflexivity |].
  split; [reflexivity |].
  apply (failed_query_yields_empty_owner 2 500 sample_world);
    [unfold nullptr; lia | reflexivity].
Defined.

(** A query that succeeds stores the pointer it answered, and that pointer
    is released exactly once when the owner goes out of scope. *)
Lemma successful_query_yields_owner (iid unk : Z) (w : World) :
  unk ≠ nullptr ->
  FAILED (fst (qi_answer w unk iid)) = false ->
  ScopedComQIPtr.ctor_query iid unk w
    = Done (ScopedComQIPtr.mk (snd (qi_answer w unk iid)))
        (log (call_QueryInterface unk iid) w).
Proof.
  intros Hunk%is_set_true Hok.
  unfold ScopedComQIPtr.ctor_query, QueryInterface, bind. rewrite Hunk.
  destruct (qi_answer w unk iid) as [hr out]; simpl in *.
  by rewrite Hok.
Qed.

(** C10: the querying constructor and the query assignment call through
    the interface pointer they are given without testing it.  With a null
    pointer both stop in a null dereference (the assignment after it has
    released the pointer it held); they complete exactly when the pointer
    is not null. *)
Theorem query_dereferences_unchecked (iid : Z) (w : World) :
  ScopedComQIPtr.ctor_query iid nullptr w = Crash NullDereference w
  /\ (forall this,
        ScopedComQIPtr.assign_query iid this nullptr w
        = Crash NullDereference
            (if is_set (ScopedComQIPtr.ptr this)
             then log (call_Release (ScopedComQIPtr.ptr this)) w else w))
  /\ (forall unk,
        (exists q w', ScopedComQIPtr.ctor_query iid unk w = Done q w')
        <-> unk ≠ nullptr)
  /\ (forall this unk,
        (exists r w', ScopedComQIPtr.assign_query iid this unk w = Done r w')
        <-> unk ≠ nullptr).
Proof.
  repeat split.
  - intros [p]. unfold ScopedComQIPtr.assign_query, QueryInterface; run.
    by destruct (is_set p).
  - intros (q & w' & Hrun) ->. discriminate Hrun.
  - intros Hunk%is_set_true.
    unfold ScopedComQIPtr.ctor_query, QueryInterface; run. rewrite Hunk.
    destruct (qi_answer w unk iid) as [hr out]; destruct (FAILED hr); eauto.
  - intros (r & w' & Hrun) ->. destruct this as [p].
    unfold ScopedComQIPtr.assign_query, QueryInterface in Hrun; run.
    by destruct (is_set p).
  - intros Hunk%is_set_true. destruct this as [p].
    unfold ScopedComQIPtr.assign_query, QueryInterface; run. rewrite Hunk.
    destruct (is_set p); simpl;
      destruct (qi_answer w unk iid) as [hr out]; destruct (FAILED hr); eauto.
Qed.

(** ** Instantiation *)

(** C8: on both owners of COM pointers, [Create] on an occupied slot stops
    in a failed assertion: no value is returned and nothing is called.  On
    an empty slot it asks the COM runtime for an instance, returns whether
    that succeeded, and the slot holds the instance on success and stays
    null on failure. *)
Theorem Create_asserts_then_instantiates (iid clsid p : Z) (w : World) :
  p ≠ nullptr ->
  ScopedComPtr.Create iid (ScopedComPtr.mk p) clsid w
    = Crash AssertionFailure w
  /\ ScopedComQIPtr.Create iid (ScopedComQIPtr.mk p) clsid w
       = Crash AssertionFailure w
  /\ ScopedComPtr.Create iid (ScopedComPtr.mk nullptr) clsid w
       = (let '(hr, out) := cocreate_answer w clsid iid in
          Done (SUCCEEDED hr,
                ScopedComPtr.mk (if SUCCEEDED hr then out else nullptr))
            (log (call_CoCreateInstance clsid iid) w))
  /\ ScopedComQIPtr.Create iid (ScopedComQIPtr.mk nullptr) clsid w
       = (let '(hr, out) := cocreate_answer w clsid iid in
          Done (SUCCEEDED hr,
                ScopedComQIPtr.mk (if SUCCEEDED hr then out else nullptr))
            (log (call_CoCreateInstance clsid iid) w)).
Proof.
  intros Hp%is_set_true.
  repeat split.
  - unfold ScopedComPtr.Create, ScopedComPtr.Create_with; run. by rewrite Hp.
  - unfold ScopedComQIPtr.Create, ScopedComQIPtr.Create_with; run.
    by rewrite Hp.
  - unfold ScopedComPtr.Create, ScopedComPtr.Create_with, CoCreateInstance;
      run. by destruct (cocreate_answer w clsid iid).
  - unfold ScopedComQIPtr.Create, ScopedComQIPtr.Create_with,
      CoCreateInstance; run. by destruct (cocreate_answer w clsid iid).
Qed.

Lemma Create_asserts_then_instantiates_witness :
  900 ≠ nullptr
  /\ ScopedComPtr.Create 1 (ScopedComPtr.mk 900) 9 sample_world
       = Crash AssertionFailure sample_world
  /\ ScopedComQIPtr.Create 1 (ScopedComQIPtr.mk 900) 9 sample_world
       = Crash AssertionFailure sample_world
  /\ ScopedComPtr.Create 1 (ScopedComPtr.mk nullptr) 9 sample_world
       = Done (true, ScopedComPtr.mk 900)
           (log (call_CoCreateInstance 9 1) sample_world).
Proof.
  split; [unfold nullptr; lia |].
  pose proof (Create_asserts_then_instantiates 1 9 900 sample_world) as H.
  destruct H as (H1 & H2 & H3 & _); [unfold nullptr; lia |].
  split; [exact H1 |]. split; [exact H2 | exact H3].
Defined.

(** X17: where the assertion macro compiles to nothing, the test that
    follows it takes over: [Create] on an occupied slot returns [false],
    keeps the slot and calls nothing. *)
Lemma Create_without_assertion (iid clsid p : Z) (w : World) :
  p ≠ nullptr ->
  ScopedComPtr.Create_with (fun _ => ret tt) iid (ScopedComPtr.mk p) clsid w
    = Done (false, ScopedComPtr.mk p) w
  /\ ScopedComQIPtr.Create_with (fun _ => ret tt) iid (ScopedComQIPtr.mk p)
       clsid w
     = Done (false, ScopedComQIPtr.mk p) w.
Proof.
  intros Hp%is_set_true.
  unfold ScopedComPtr.Create_with, ScopedComQIPtr.Create_with; run.
  by rewrite Hp.
Qed.


(** ** Selection guards *)

Lemma SelectObject_selected (hdc obj prev : Z) (w : World) :
  selected w !! hdc = Some prev ->
  SelectObject hdc obj w
  = Done prev (log (call_SelectObject hdc obj)
                 (set_selected (<[hdc := obj]> (selected w)) w)).
Proof. intros H. unfold SelectObject. by rewrite H. Qed.

(** C9: on a device context in which [o0] is selected, constructing the
    guard selects the given object and records [o0]; destroying it
    re-selects exactly [o0].  Two nested guards therefore undo their
    selections last-in, first-out: the inner one puts back the outer one's
    object, the outer one puts back [o0], and the context ends with the
    selection it had before either guard. *)
Theorem selection_guards_restore_lifo (hdc a b o0 : Z) (w : World) :
  selected w !! hdc = Some o0 ->
  ScopedHdcSelect.ctor_from hdc a w
    = Done (ScopedHdcSelect.mk hdc o0)
        (log (call_SelectObject hdc a)
           (set_selected (<[hdc := a]> (selected w)) w))
  /\ (exists w',
        scope (ScopedHdcSelect.ctor_from hdc a) skip ScopedHdcSelect.dtor w
          = Done tt w'
        /\ trace w' = trace w ++ [call_SelectObject hdc a;
                                  call_SelectObject hdc o0]
        /\ selected w' = selected w)
  /\ (exists w',
        nested_selections hdc a b w = Done tt w'
        /\ trace w' = trace w ++ [call_SelectObject hdc a;
                                  call_SelectObject hdc b;
                                  call_SelectObject hdc a;
                                  call_SelectObject hdc o0]
        /\ selected w' = selected w).
Proof.
  intros Hsel.
  assert (Hback : <[hdc := o0]> (selected w) = selected w)
    by (by apply insert_id).
  split; [| split].
  - unfold ScopedHdcSelect.ctor_from, bind.
    by rewrite (SelectObject_selected _ _ _ _ Hsel).
  - unfold scope, skip, ScopedHdcSelect.ctor_from, ScopedHdcSelect.dtor,
      bind, ret.
    rewrite (SelectObject_selected _ _ _ _ Hsel); cbn [snd fst
      ScopedHdcSelect.hdc ScopedHdcSelect.prev].
    erewrite SelectObject_selected by (simpl; apply lookup_insert_eq).
    eexists. split; [reflexivity |]. simpl.
    rewrite insert_insert_eq, Hback, <- app_assoc. done.
  - unfold nested_selections, scope, skip, ScopedHdcSelect.ctor_from,
      ScopedHdcSelect.dtor, bind, ret.
    rewrite (SelectObject_selected _ _ _ _ Hsel); cbn [snd fst
      ScopedHdcSelect.hdc ScopedHdcSelect.prev].
    erewrite SelectObject_selected by (simpl; apply lookup_insert_eq).
    cbn [snd fst ScopedHdcSelect.hdc ScopedHdcSelect.prev].
    erewrite SelectObject_selected by (simpl; apply lookup_insert_eq).
    cbn [snd fst ScopedHdcSelect.hdc ScopedHdcSelect.prev].
    erewrite SelectObject_selected by (simpl; apply lookup_insert_eq).
    eexists. split; [reflexivity |]. simpl.
    rewrite !insert_insert_eq, Hback, <- !app_assoc. done.
Qed.

Lemma selection_guards_restore_lifo_witness :
  selected sample_world !! 7 = Some 70
  /\ ScopedHdcSelect.ctor_from 7 71 sample_world
       = Done (ScopedHdcSelect.mk 7 70)
           (log (call_SelectObject 7 71)
              (set_selected (<[7 := 71]> (selected sample_world))
                 sample_world))
  /\ (exists w',
        scope (ScopedHdcSelect.ctor_from 7 71) skip ScopedHdcSelect.dtor
          sample_world = Done tt w'
        /\ trace w' = trace sample_world ++ [call_SelectObject 7 71;
                                             call_SelectObject 7 70]
        /\ selected w' = selected sample_world)
  /\ (exists w',
        nested_selections 7 71 72 sample_world = Done tt w'
        /\ trace w' = trace sample_world ++ [call_SelectObject 7 71;
                                             call_SelectObject 7 72;
                                             call_SelectObject 7 71;
                                             call_SelectObject 7 70]
        /\ selected w' = selected sample_world).
Proof.
  split; [reflexivity |].
  apply (selection_guards_restore_lifo 7 71 72 70 sample_world).
  reflexivity.
Defined.

(** On a handle that is not a device context nothing is selected and
    nothing needs to be put back: the guards leave the selections alone. *)
Lemma selection_guards_on_unknown_context (hdc a b : Z) (w : World) :
  selected w !! hdc = None ->
  exists w',
    nested_selections hdc a b w = Done tt w' /\ selected w' = selected w.
Proof.
  intros Hsel.
  unfold nested_selections, scope, skip, ScopedHdcSelect.ctor_from,
    ScopedHdcSelect.dtor, bind, ret, SelectObject.
  do 4 (cbn [snd fst ScopedHdcSelect.hdc ScopedHdcSelect.prev selected log];
        rewrite ?Hsel).
  eexists; split; reflexivity.
Qed.


(** * Further properties *)

Lemma bind_Done {A B : Type} (m : Prog A) (k : A -> Prog B) (w w' : World)
    (a : A) :
  m w = Done a w' -> bind m k w = k a w'.
Proof. intros H. unfold bind. by rewrite H. Qed.

(** A scope whose body leaves the object alone: constructor, body,
    destructor, one after the other. *)
Lemma scope_inside {S A : Type} (ctor : Prog S) (body : Prog A)
    (dtor : S -> Prog unit) (w w1 w2 w3 : World) (s : S) (a : A) :
  ctor w = Done s w1 ->
  body w1 = Done a w2 ->
  dtor s w2 = Done tt w3 ->
  scope ctor (inside body) dtor w = Done a w3.
Proof.
  intros Hc Hb Hd. unfold scope, inside.
  rewrite (bind_Done _ _ _ _ _ Hc).
  rewrite (bind_Done _ _ w1 w2 (a, s)); [| by rewrite (bind_Done _ _ _ _ _ Hb)].
  cbn [fst snd]. by rewrite (bind_Done _ _ _ _ _ Hd).
Qed.

(** A scope whose body is one member call: constructor, call,
    destructor. *)
Lemma scope_void {S : Type} (ctor : Prog S) (m : S -> Prog S)
    (dtor : S -> Prog unit) (w : World) :
  scope ctor (void m) dtor w = bind ctor (fun s => bind (m s) dtor) w.
Proof.
  unfold scope, void, bind, ret.
  destruct (ctor w) as [s w1 |]; [| done].
  destruct (m s w1) as [s' w2 |]; [| done]. cbn [fst snd].
  by destruct (dtor s' w2) as [[] w3 |].
Qed.

Lemma logs_nil (w : World) : logs [] w = w.
Proof. destruct w. unfold logs; simpl. by rewrite app_nil_r. Qed.

Lemma logs_log (c : Call) (l : list Call) (w : World) :
  logs l (log c w) = logs (c :: l) w.
Proof. unfold logs, log; simpl. by rewrite <- app_assoc. Qed.

(** ** Nested lock guards *)

(** X1: whatever number of critical-section guards are nested, the
    sections are entered in the order of declaration before the body runs
    and left in the reverse order after it, each exactly once. *)
Theorem nested_locks_release_in_reverse {A : Type} (css : list Z)
    (body : Prog A) (a : A) (l : list Call) (w : World) :
  makes_calls body (logs (map call_EnterCriticalSection css) w) a l ->
  makes_calls (with_locks css body) w a
    (map call_EnterCriticalSection css ++ l
       ++ map call_LeaveCriticalSection (rev css)).
Proof.
  revert w. induction css as [| cs rest IH]; intros w Hbody.
  - simpl in Hbody. rewrite logs_nil in Hbody.
    destruct Hbody as (w' & Hrun & Htr). exists w'. split; [exact Hrun |].
    simpl. by rewrite app_nil_r.
  - simpl in Hbody. rewrite <- logs_log in Hbody.
    destruct (IH _ Hbody) as (w2 & Hrun & Htr).
    exists (log (call_LeaveCriticalSection cs) w2). split.
    + simpl. eapply scope_inside; [reflexivity | exact Hrun | reflexivity].
    + simpl. rewrite Htr. simpl. rewrite map_app. simpl.
      by rewrite <- !app_assoc.
Qed.

Lemma nested_locks_release_in_reverse_witness :
  makes_calls (CloseHandle 5)
    (logs (map call_EnterCriticalSection [1; 2]) sample_world) tt
    [call_CloseHandle 5]
  /\ makes_calls (with_locks [1; 2] (CloseHandle 5)) sample_world tt
       [call_EnterCriticalSection 1; call_EnterCriticalSection 2;
        call_CloseHandle 5;
        call_LeaveCriticalSection 2; call_LeaveCriticalSection 1].
Proof.
  assert (H : makes_calls (CloseHandle 5)
                (logs (map call_EnterCriticalSection [1; 2]) sample_world) tt
                [call_CloseHandle 5])
    by (eexists; split; reflexivity).
  split; [exact H |].
  exact (nested_locks_release_in_reverse [1; 2] (CloseHandle 5) tt
           [call_CloseHandle 5] sample_world H).
Defined.

(** ** Initialisation guards around a body *)

(** X2: a COM, OLE or GDI+ initialisation guard brackets everything its
    scope does: the start-up call comes first and the matching shutdown
    call last, each exactly once.  The GDI+ guard constructed with
    [inWinMain] installs its notification hook right after start-up and
    removes it, with the token it was given, after the body and before the
    shutdown; constructed without, it makes no hook call at all. *)
Theorem init_guards_bracket_body {A : Type} (body : Prog A) (a : A)
    (l : list Call) (inWinMain : bool) (w : World) :
  (forall pre, makes_calls body (logs pre w) a l) ->
  makes_calls (scope ScopedCom.ctor (inside body) ScopedCom.dtor) w a
    (call_CoInitialize :: l ++ [call_CoUninitialize])
  /\ makes_calls (scope ScopedOle.ctor (inside body) ScopedOle.dtor) w a
       (call_OleInitialize :: l ++ [call_OleUninitialize])
  /\ makes_calls
       (scope (ScopedGdiPlus.ctor_from inWinMain) (inside body)
          ScopedGdiPlus.dtor) w a
       (call_GdiplusStartup inWinMain
          :: (if inWinMain then [call_NotificationHook] else [])
          ++ l
          ++ (if inWinMain
              then [call_NotificationUnhook (gdiplus_hookToken w)] else [])
          ++ [call_GdiplusShutdown (gdiplus_token w)]).
Proof.
  intros Hbody. split; [| split].
  - destruct (Hbody [call_CoInitialize]) as (w2 & Hrun & Htr).
    eexists. split.
    + eapply scope_inside; [reflexivity | exact Hrun | reflexivity].
    + simpl. rewrite Htr. simpl. by rewrite <- !app_assoc.
  - destruct (Hbody [call_OleInitialize]) as (w2 & Hrun & Htr).
    eexists. split.
    + eapply scope_inside; [reflexivity | exact Hrun | reflexivity].
    + simpl. rewrite Htr. simpl. by rewrite <- !app_assoc.
  - destruct inWinMain.
    + destruct (Hbody [call_GdiplusStartup true; call_NotificationHook])
        as (w2 & Hrun & Htr).
      assert (Hctor : ScopedGdiPlus.ctor_from true w
                = Done (ScopedGdiPlus.mk (gdiplus_token w)
                          (Some (gdiplus_hookToken w)) true)
                    (logs [call_GdiplusStartup true; call_NotificationHook] w)).
      { unfold ScopedGdiPlus.ctor_from, GdiplusStartup, NotificationHook,
          bind, ret, logs, log; simpl. by rewrite <- app_assoc. }
      eexists. split.
      * eapply scope_inside; [exact Hctor | exact Hrun | reflexivity].
      * simpl. rewrite Htr. simpl. by rewrite <- !app_assoc.
    + destruct (Hbody [call_GdiplusStartup false]) as (w2 & Hrun & Htr).
      eexists. split.
      * eapply scope_inside; [reflexivity | exact Hrun | reflexivity].
      * simpl. rewrite Htr. simpl. by rewrite <- !app_assoc.
Qed.

Lemma init_guards_bracket_body_witness :
  (forall pre, makes_calls (CloseHandle 5) (logs pre sample_world) tt
                 [call_CloseHandle 5])
  /\ makes_calls
       (scope (ScopedGdiPlus.ctor_from true) (inside (CloseHandle 5))
          ScopedGdiPlus.dtor) sample_world tt
       [call_GdiplusStartup true; call_NotificationHook; call_CloseHandle 5;
        call_NotificationUnhook 12; call_GdiplusShutdown 11].
Proof.
  assert (H : forall pre, makes_calls (CloseHandle 5) (logs pre sample_world)
                            tt [call_CloseHandle 5])
    by (intros pre; eexists; split; reflexivity).
  split; [exact H |].
  exact (proj2 (proj2 (init_guards_bracket_body (CloseHandle 5) tt
                         [call_CloseHandle 5] true sample_world H))).
Defined.

(** ** Instantiation and query, to the end of the scope *)

(** X3: an owner of a COM pointer that is created empty, instantiated with
    [Create] and then goes out of scope asks the COM runtime exactly once
    and releases what it was given exactly once; when the instantiation
    failed (or handed back null) it releases nothing.  [Create] returns
    whether the runtime reported success. *)
Theorem Create_then_destroy (iid clsid : Z) (w : World) :
  makes_calls
    (scope ScopedComPtr.ctor
       (fun this => ScopedComPtr.Create iid this clsid) ScopedComPtr.dtor)
    w (SUCCEEDED (fst (cocreate_answer w clsid iid)))
    (call_CoCreateInstance clsid iid
       :: (if SUCCEEDED (fst (cocreate_answer w clsid iid))
              && is_set (snd (cocreate_answer w clsid iid))
           then [call_Release (snd (cocreate_answer w clsid iid))] else []))
  /\ makes_calls
       (scope ScopedComQIPtr.ctor
          (fun this => ScopedComQIPtr.Create iid this clsid)
          ScopedComQIPtr.dtor)
       w (SUCCEEDED (fst (cocreate_answer w clsid iid)))
       (call_CoCreateInstance clsid iid
          :: (if SUCCEEDED (fst (cocreate_answer w clsid iid))
                 && is_set (snd (cocreate_answer w clsid iid))
              then [call_Release (snd (cocreate_answer w clsid iid))]
              else [])).
Proof.
  split.
  - unfold ScopedComPtr.ctor, ScopedComPtr.Create, ScopedComPtr.Create_with,
      ScopedComPtr.dtor, CoCreateInstance; run.
    destruct (cocreate_answer w clsid iid) as [hr out]; simpl.
    destruct (SUCCEEDED hr); simpl; [destruct (is_set out) |]; traced.
  - unfold ScopedComQIPtr.ctor, ScopedComQIPtr.Create,
      ScopedComQIPtr.Create_with, ScopedComQIPtr.dtor, CoCreateInstance; run.
    destruct (cocreate_answer w clsid iid) as [hr out]; simpl.
    destruct (SUCCEEDED hr); simpl; [destruct (is_set out) |]; traced.
Qed.




(** ** The memory owner over several operations *)

Lemma set_heap_logs_nil (w : World) : set_heap (heap w) (logs [] w) = w.
Proof. destruct w. unfold set_heap, logs; simpl. by rewrite app_nil_r. Qed.

Lemma heap_after_frees_other (ps : list Z) (h : gmap Z (list Z)) (q : Z) :
  q ∉ ps -> heap_after_frees ps h !! q = h !! q.
Proof.
  revert h. induction ps as [| p ps IH]; intros h Hq; [done |].
  apply not_elem_of_cons in Hq as [Hne Hq]. simpl. rewrite (IH _ Hq).
  destruct (is_set p); [| done]. by rewrite lookup_delete_ne.
Qed.

Lemma heap_after_frees_gone (ps : list Z) (h : gmap Z (list Z)) (q : Z) :
  h !! q = None -> heap_after_frees ps h !! q = None.
Proof.
  revert h. induction ps as [| p ps IH]; intros h Hq; [done |].
  simpl. apply IH. destruct (is_set p); [| done].
  rewrite lookup_delete. by case_decide.
Qed.

Lemma heap_after_frees_freed (ps : list Z) (h : gmap Z (list Z)) (q : Z) :
  q ∈ ps -> q ≠ nullptr -> heap_after_frees ps h !! q = None.
Proof.
  revert h. induction ps as [| p ps IH]; intros h Hq Hnull.
  - by apply elem_of_nil in Hq.
  - simpl. destruct (decide (q = p)) as [-> | Hne].
    + apply heap_after_frees_gone. apply is_set_true in Hnull as ->.
      apply lookup_delete_eq.
    + apply IH; [| done]. apply elem_of_cons in Hq as [? | ?]; done.
Qed.

(** A run of [Set] calls followed by the destructor. *)
Lemma set_all_then_dtor (vs : list Z) (v0 : Z) (w : World) :
  bind (set_all (ScopedMem.mk v0) vs) ScopedMem.dtor w
  = Done tt (set_heap (heap_after_frees (v0 :: vs) (heap w))
               (logs (map call_free (v0 :: vs)) w)).
Proof.
  revert v0 w. induction vs as [| v rest IH]; intros v0 w.
  - reflexivity.
  - change (bind (set_all (ScopedMem.mk v0) (v :: rest)) ScopedMem.dtor w)
      with (bind (set_all (ScopedMem.mk v) rest) ScopedMem.dtor
              (log (call_free v0)
                 (set_heap (if is_set v0 then delete v0 (heap w) else heap w)
                    w))).
    rewrite IH. f_equal. unfold set_heap, logs, log; simpl.
    by rewrite <- app_assoc.
Qed.

(** X5: a memory owner given any sequence of values through [Set] passes
    every value it ever held to [free] exactly once each time it was
    given, in the order given, the last one at the end of the scope.
    Afterwards none of the non-null values is readable any more, and no
    other block has been touched. *)
Theorem set_sequence_frees_all_given (v0 : Z) (vs : list Z) (w : World) :
  exists w',
    scope (ScopedMem.ctor_from v0) (void (fun m => set_all m vs))
      ScopedMem.dtor w = Done tt w'
    /\ trace w' = trace w ++ map call_free (v0 :: vs)
    /\ (forall q, q ∈ v0 :: vs -> q ≠ nullptr -> heap w' !! q = None)
    /\ (forall q, q ∉ v0 :: vs -> heap w' !! q = heap w !! q).
Proof.
  pose proof (set_all_then_dtor vs v0 w) as Hrun.
  eexists. split; [| split; [| split]].
  - rewrite scope_void. unfold ScopedMem.ctor_from.
    rewrite (bind_Done _ _ w w (ScopedMem.mk v0)) by reflexivity.
    exact Hrun.
  - reflexivity.
  - intros q Hin Hq. by apply heap_after_frees_freed.
  - intros q Hout. by apply heap_after_frees_other.
Qed.

(** X6: [Set] does not test whether it is given the block it already
    holds.  Given its own non-null pointer the owner frees the block and
    keeps the pointer, which is no longer readable, and at the end of the
    scope it passes the same pointer to [free] a second time. *)
Theorem self_reassignment_frees_held_block (p : Z) (w : World) :
  p ≠ nullptr ->
  (exists w',
     ScopedMem.Set_ (ScopedMem.mk p) p w = Done (ScopedMem.mk p) w'
     /\ heap w' !! p = None)
  /\ makes_calls
       (scope (ScopedMem.ctor_from p) (void (fun m => ScopedMem.Set_ m p))
          ScopedMem.dtor) w tt [call_free p; call_free p].
Proof.
  intros Hp%is_set_true. split.
  - eexists. split; [reflexivity |]. simpl. rewrite Hp.
    apply lookup_delete_eq.
  - unfold ScopedMem.ctor_from, ScopedMem.Set_, ScopedMem.dtor, void; run.
    traced.
Qed.

Lemma self_reassignment_frees_held_block_witness :
  4096 ≠ nullptr
  /\ makes_calls
       (scope (ScopedMem.ctor_from 4096)
          (void (fun m => ScopedMem.Set_ m 4096)) ScopedMem.dtor)
       sample_world tt [call_free 4096; call_free 4096].
Proof.
  split; [unfold nullptr; lia |].
  apply (self_reassignment_frees_held_block 4096 sample_world).
  unfold nullptr; lia.
Defined.

(** X7: a block moved from one memory owner to another with
    [b.Set(a.StealData())] is freed exactly once, by the owner that
    received it; the owner it was taken from and the receiver's first,
    empty state each pass only the null pointer to [free]. *)
Theorem transfer_frees_once (p : Z) (w : World) :
  makes_calls (transfer p) w tt
    [call_free nullptr; call_free p; call_free nullptr]
  /\ heap (world_of (transfer p w))
     = (if is_set p then delete p (heap w) else heap w).
Proof.
  split.
  - unfold transfer, ScopedMem.ctor_from, ScopedMem.ctor,
      ScopedMem.StealData, ScopedMem.Set_, ScopedMem.dtor; run. traced.
  - reflexivity.
Qed.

(** ** The string owner over several operations *)

(** X8: [SetCopy] releases the held buffer before it reads the text it is
    given.  Given the buffer it holds, it therefore reads memory it has
    just freed: the call does not complete. *)
Theorem SetCopy_of_held_buffer_reads_freed (p : Z) (w : World) :
  p ≠ nullptr ->
  AutoFreeStr.SetCopy (ScopedMem.mk p) p w
  = Crash InvalidRead
      (log (call_free p) (set_heap (delete p (heap w)) w)).
Proof.
  intros Hp%is_set_true.
  unfold AutoFreeStr.SetCopy, bind, free, Dup. simpl. rewrite Hp. simpl.
  by rewrite lookup_delete_eq.
Qed.

Lemma SetCopy_of_held_buffer_reads_freed_witness :
  4096 ≠ nullptr
  /\ heap sample_world !! 4096 = Some [104; 105]
  /\ AutoFreeStr.SetCopy (ScopedMem.mk 4096) 4096 sample_world
     = Crash InvalidRead
         (log (call_free 4096)
            (set_heap (delete 4096 (heap sample_world)) sample_world)).
Proof.
  split; [unfold nullptr; lia |]. split; [reflexivity |].
  apply (SetCopy_of_held_buffer_reads_freed 4096 sample_world).
  unfold nullptr; lia.
Defined.

(** X9: a string owner that is created empty, takes a copy of borrowed
    text with [SetCopy] and goes out of scope leaves the heap exactly as it
    found it: the copy it made is freed, the borrowed text is untouched. *)
Theorem SetCopy_scope_restores_heap (src : Z) (txt : list Z) (w : World) :
  src ≠ nullptr ->
  heap w !! src = Some txt ->
  exists d w',
    scope AutoFreeStr.ctor (void (fun s => AutoFreeStr.SetCopy s src))
      AutoFreeStr.dtor w = Done tt w'
    /\ trace w' = trace w ++ [call_free nullptr; call_Dup src d; call_free d]
    /\ d ≠ src
    /\ heap w' = heap w.
Proof.
  intros Hsrc Htxt. apply is_set_true in Hsrc as Hset.
  pose proof (fresh_addr_not_null (heap w)) as Hd%is_set_true.
  pose proof (fresh_addr_unused (heap w)) as Hun.
  exists (fresh_addr (heap w)). eexists.
  unfold scope, void, AutoFreeStr.ctor, AutoFreeStr.SetCopy, AutoFreeStr.dtor,
    ScopedMem.ctor, ScopedMem.dtor, bind, ret, free, Dup.
  simpl. rewrite Hset. simpl. rewrite Htxt. simpl. rewrite Hd.
  split; [reflexivity |]. simpl.
  split; [by rewrite <- !app_assoc |].
  split; [intros Heq; rewrite Heq, Htxt in Hun; discriminate |].
  by apply delete_insert_id.
Qed.

Lemma SetCopy_scope_restores_heap_witness :
  4096 ≠ nullptr
  /\ heap sample_world !! 4096 = Some [104; 105]
  /\ exists d w',
       scope AutoFreeStr.ctor (void (fun s => AutoFreeStr.SetCopy s 4096))
         AutoFreeStr.dtor sample_world = Done tt w'
       /\ trace w' = trace sample_world
                     ++ [call_free nullptr; call_Dup 4096 d; call_free d]
       /\ d ≠ 4096
       /\ heap w' = heap sample_world.
Proof.
  split; [unfold nullptr; lia |]. split; [reflexivity |].
  apply (SetCopy_scope_restores_heap 4096 [104; 105] sample_world);
    [unfold nullptr; lia | reflexivity].
Defined.

(** ** Owners with an assignment operator over several assignments *)

Lemma bind_assoc {A B C : Type} (m : Prog A) (k : A -> Prog B)
    (k' : B -> Prog C) (w : World) :
  bind (bind m k) k' w = bind m (fun a => bind (k a) k') w.
Proof. unfold bind. by destruct (m w). Qed.

Lemma logs_app (l l' : list Call) (w : World) :
  logs l' (logs l w) = logs (l ++ l') w.
Proof. unfold logs; simpl. by rewrite <- app_assoc. Qed.

Section AssignSequence.

Context {S : Type}.
Variable assign : S -> Z -> Prog (Z * S).
Variable dtor : S -> Prog unit.
Variable make : Z -> S.
Variable rel : Z -> Call.

Hypothesis assign_releases : forall old new w,
  assign (make old) new w
  = Done (new, make new) (logs (if is_set old then [rel old] else []) w).
Hypothesis dtor_releases : forall old w,
  dtor (make old) w = Done tt (logs (if is_set old then [rel old] else []) w).

Lemma assign_all_then_dtor (vs : list Z) (v0 : Z) (w : World) :
  bind (assign_all assign (make v0) vs) dtor w
  = Done tt (logs (map rel (set_values (v0 :: vs))) w).
Proof.
  revert v0 w. induction vs as [| v rest IH]; intros v0 w.
  - simpl. rewrite (bind_Done _ _ w w (make v0)) by reflexivity.
    rewrite dtor_releases. by destruct (is_set v0).
  - simpl assign_all. rewrite bind_assoc.
    rewrite (bind_Done _ _ _ _ _ (assign_releases v0 v w)). cbn [snd].
    rewrite IH, logs_app. f_equal. f_equal.
    unfold set_values. simpl. by destruct (is_set v0).
Qed.

Lemma assign_sequence_in_scope (ctor_from : Z -> Prog S) (vs : list Z)
    (v0 : Z) (w : World) :
  (forall w0, ctor_from v0 w0 = Done (make v0) w0) ->
  makes_calls
    (scope (ctor_from v0) (void (fun o => assign_all assign o vs)) dtor)
    w tt (map rel (set_values (v0 :: vs))).
Proof.
  intros Hctor. eexists. split.
  - rewrite scope_void, (bind_Done _ _ _ _ _ (Hctor w)).
    apply assign_all_then_dtor.
  - reflexivity.
Qed.

End AssignSequence.

(** X10: an owner with an assignment operator that is given any sequence
    of values, null ones included, completes without a fault: the guarded
    release is never made through a null pointer.  It releases each
    non-null value it held exactly once per time it was given, in the
    order given, the last one at the end of the scope, and makes no other
    call. *)
Theorem assign_sequence_releases_set_values (v0 : Z) (vs : list Z)
    (w : World) :
  makes_calls
    (scope (ScopedPtr.ctor_from v0)
       (void (fun o => assign_all ScopedPtr.assign o vs)) ScopedPtr.dtor)
    w tt (map call_delete (set_values (v0 :: vs)))
  /\ makes_calls
       (scope (ScopedComPtr.ctor_from v0)
          (void (fun o => assign_all ScopedComPtr.assign o vs))
          ScopedComPtr.dtor)
       w tt (map call_Release (set_values (v0 :: vs)))
  /\ makes_calls
       (scope ScopedComQIPtr.ctor
          (void (fun o => assign_all ScopedComQIPtr.assign o vs))
          ScopedComQIPtr.dtor)
       w tt (map call_Release (set_values vs)).
Proof.
  split; [| split].
  - apply (assign_sequence_in_scope ScopedPtr.assign ScopedPtr.dtor
             ScopedPtr.mk call_delete); [| | done].
    + intros old new w0. unfold ScopedPtr.assign, cpp_delete, bind, emit, ret.
      simpl. destruct (is_set old); [done |]. by rewrite logs_nil.
    + intros old w0. unfold ScopedPtr.dtor, cpp_delete, emit, ret. simpl.
      destruct (is_set old); [done |]. by rewrite logs_nil.
  - apply (assign_sequence_in_scope ScopedComPtr.assign ScopedComPtr.dtor
             ScopedComPtr.mk call_Release); [| | done].
    + intros old new w0. unfold ScopedComPtr.assign, Release, bind, emit, ret.
      simpl. destruct (is_set old); [done |]. by rewrite logs_nil.
    + intros old w0. unfold ScopedComPtr.dtor, Release, emit, ret. simpl.
      destruct (is_set old); [done |]. by rewrite logs_nil.
  - assert (Ha : forall old new w0,
              ScopedComQIPtr.assign (ScopedComQIPtr.mk old) new w0
              = Done (new, ScopedComQIPtr.mk new)
                  (logs (if is_set old then [call_Release old] else []) w0)).
    { intros old new w0.
      unfold ScopedComQIPtr.assign, Release, bind, emit, ret.
      simpl. destruct (is_set old); [done |]. by rewrite logs_nil. }
    assert (Hd : forall old w0,
              ScopedComQIPtr.dtor (ScopedComQIPtr.mk old) w0
              = Done tt
                  (logs (if is_set old then [call_Release old] else []) w0)).
    { intros old w0. unfold ScopedComQIPtr.dtor, Release, emit, ret. simpl.
      destruct (is_set old); [done |]. by rewrite logs_nil. }
    exact (assign_sequence_in_scope ScopedComQIPtr.assign ScopedComQIPtr.dtor
             ScopedComQIPtr.mk call_Release Ha Hd
             (fun _ => ScopedComQIPtr.ctor) vs nullptr w
             (fun w0 => eq_refl)).
Qed.

(** ** Selection guards, any number and any order *)

Lemma removelast_cons_cons (x y : Z) (l : list Z) :
  removelast (x :: y :: l) = x :: removelast (y :: l).
Proof. reflexivity. Qed.

(** X11: any number of selection guards nested on one device context undo
    their selections last-in, first-out: the objects are selected in the
    order of declaration, then each guard puts back the object it
    replaced, innermost first, the outermost one putting back the object
    that was selected before all of them.  The context ends with the
    selection it started with. *)
Theorem nested_guards_restore_selection (hdc o0 : Z) (objs : list Z)
    (w : World) :
  selected w !! hdc = Some o0 ->
  exists w',
    nested_guards hdc objs w = Done tt w'
    /\ trace w' = trace w ++ map (call_SelectObject hdc) objs
                    ++ map (call_SelectObject hdc)
                         (rev (removelast (o0 :: objs)))
    /\ selected w' = selected w.
Proof.
  revert o0 w. induction objs as [| obj rest IH]; intros o0 w Hsel.
  - exists w. split; [reflexivity |]. split; [| reflexivity].
    simpl. by rewrite app_nil_r.
  - pose proof (SelectObject_selected hdc obj o0 w Hsel) as Hctor.
    set (w1 := log (call_SelectObject hdc obj)
                 (set_selected (<[hdc := obj]> (selected w)) w)) in *.
    assert (Hsel1 : selected w1 !! hdc = Some obj)
      by (simpl; apply lookup_insert_eq).
    destruct (IH obj w1 Hsel1) as (w2 & Hrun & Htr & Hsame).
    assert (Hsel2 : selected w2 !! hdc = Some obj) by (by rewrite Hsame).
    pose proof (SelectObject_selected hdc o0 obj w2 Hsel2) as Hdtor.
    eexists. split; [| split].
    + simpl. eapply scope_inside; [| exact Hrun |].
      * unfold ScopedHdcSelect.ctor_from.
        by rewrite (bind_Done _ _ _ _ _ Hctor).
      * unfold ScopedHdcSelect.dtor. simpl.
        by rewrite (bind_Done _ _ _ _ _ Hdtor).
    + simpl trace. rewrite Htr. subst w1. simpl trace.
      rewrite removelast_cons_cons. simpl rev. rewrite map_app. simpl.
      by rewrite <- !app_assoc.
    + simpl selected. rewrite Hsame. subst w1. simpl selected.
      rewrite insert_insert_eq. by apply insert_id.
Qed.

Lemma nested_guards_restore_selection_witness :
  selected sample_world !! 7 = Some 70
  /\ exists w',
       nested_guards 7 [71; 72; 73] sample_world = Done tt w'
       /\ trace w' = trace sample_world
                     ++ map (call_SelectObject 7) [71; 72; 73]
                     ++ map (call_SelectObject 7)
                          (rev (removelast (70 :: [71; 72; 73])))
       /\ selected w' = selected sample_world.
Proof.
  split; [reflexivity |].
  apply (nested_guards_restore_selection 7 70 [71; 72; 73] sample_world).
  reflexivity.
Defined.

(** X12: a selection guard puts back the object it recorded, whatever is
    selected when it is destroyed.  Two guards destroyed in the order of
    their construction therefore do not restore the context: it ends with
    the first guard's object selected, not with the original one. *)
Theorem guards_out_of_order_do_not_restore (hdc a b o0 : Z) (w : World) :
  selected w !! hdc = Some o0 ->
  exists w',
    guards_out_of_order hdc a b w = Done tt w'
    /\ trace w' = trace w ++ [call_SelectObject hdc a;
                              call_SelectObject hdc b;
                              call_SelectObject hdc o0;
                              call_SelectObject hdc a]
    /\ selected w' = <[hdc := a]> (selected w)
    /\ selected w' !! hdc = Some a.
Proof.
  intros Hsel.
  unfold guards_out_of_order, ScopedHdcSelect.ctor_from,
    ScopedHdcSelect.dtor, bind, ret.
  rewrite (SelectObject_selected _ _ _ _ Hsel).
  erewrite SelectObject_selected by (simpl; apply lookup_insert_eq).
  cbn [ScopedHdcSelect.hdc ScopedHdcSelect.prev].
  erewrite SelectObject_selected by (simpl; apply lookup_insert_eq).
  erewrite SelectObject_selected by (simpl; apply lookup_insert_eq).
  eexists. split; [reflexivity |]. simpl.
  rewrite !insert_insert_eq, <- !app_assoc.
  split; [done |]. split; [done |]. apply lookup_insert_eq.
Qed.

Lemma guards_out_of_order_do_not_restore_witness :
  selected sample_world !! 7 = Some 70
  /\ exists w',
       guards_out_of_order 7 71 72 sample_world = Done tt w'
       /\ trace w' = trace sample_world ++ [call_SelectObject 7 71;
                                            call_SelectObject 7 72;
                                            call_SelectObject 7 70;
                                            call_SelectObject 7 71]
       /\ selected w' = <[7 := 71]> (selected sample_world)
       /\ selected w' !! 7 = Some 71.
Proof.
  split; [reflexivity |].
  apply (guards_out_of_order_do_not_restore 7 71 72 70 sample_world).
  reflexivity.
Defined.

(** ** Instantiating twice *)

(** X13: a second [Create] on the same owner.  After a first [Create] that
    failed (or was handed null) the owner is still empty and the second
    one behaves like [Create] on a new owner: instantiation can be tried
    again.  After a first [Create] that stored an instance the second one
    stops in the assertion without asking the runtime again. *)
Theorem Create_twice (iid clsid clsid' : Z) (w : World) :
  (let! r := ScopedComPtr.Create iid (ScopedComPtr.mk nullptr) clsid in
   ScopedComPtr.Create iid (snd r) clsid') w
  = (if SUCCEEDED (fst (cocreate_answer w clsid iid))
        && is_set (snd (cocreate_answer w clsid iid))
     then Crash AssertionFailure (log (call_CoCreateInstance clsid iid) w)
     else ScopedComPtr.Create iid (ScopedComPtr.mk nullptr) clsid'
            (log (call_CoCreateInstance clsid iid) w))
  /\ (let! r := ScopedComQIPtr.Create iid (ScopedComQIPtr.mk nullptr) clsid in
      ScopedComQIPtr.Create iid (snd r) clsid') w
     = (if SUCCEEDED (fst (cocreate_answer w clsid iid))
           && is_set (snd (cocreate_answer w clsid iid))
        then Crash AssertionFailure (log (call_CoCreateInstance clsid iid) w)
        else ScopedComQIPtr.Create iid (ScopedComQIPtr.mk nullptr) clsid'
               (log (call_CoCreateInstance clsid iid) w)).
Proof.
  split.
  - unfold ScopedComPtr.Create, ScopedComPtr.Create_with, CoCreateInstance;
      run.
    destruct (cocreate_answer w clsid iid) as [hr out]; simpl.
    destruct (SUCCEEDED hr); simpl; [| done].
    by destruct (is_set out).
  - unfold ScopedComQIPtr.Create, ScopedComQIPtr.Create_with,
      CoCreateInstance; run.
    destruct (cocreate_answer w clsid iid) as [hr out]; simpl.
    destruct (SUCCEEDED hr); simpl; [| done].
    by destruct (is_set out).
Qed.

(** ** Witnesses for the side lemmas above *)

Lemma query_assignment_releases_previous_witness :
  900 ≠ nullptr /\ 500 ≠ nullptr
  /\ makes_calls
       (ScopedComQIPtr.assign_query 1 (ScopedComQIPtr.mk 900) 500)
       sample_world (501, ScopedComQIPtr.mk 501)
       [call_Release 900; call_QueryInterface 500 1].
Proof.
  split; [unfold nullptr; lia |]. split; [unfold nullptr; lia |].
  apply (query_assignment_releases_previous 1 900 500 sample_world);
    unfold nullptr; lia.
Defined.

Lemma SetCopy_of_zero_length_text_witness :
  4096 ≠ nullptr
  /\ 4096 ≠ ScopedMem.ptr (ScopedMem.mk 0)
  /\ heap (set_heap {[ 4096 := [] ]} sample_world) !! 4096 = Some []
  /\ exists d w',
       AutoFreeStr.SetCopy (ScopedMem.mk 0) 4096
         (set_heap {[ 4096 := [] ]} sample_world) = Done (ScopedMem.mk d) w'
       /\ trace w' = trace (set_heap {[ 4096 := [] ]} sample_world)
                     ++ [call_free (ScopedMem.ptr (ScopedMem.mk 0));
                         call_Dup 4096 d]
       /\ d ≠ nullptr
       /\ d ≠ 4096
       /\ heap w' !! d = Some []
       /\ heap w' !! 4096 = Some [].
Proof.
  split; [unfold nullptr; lia |]. split; [simpl; lia |].
  split; [reflexivity |].
  apply (SetCopy_of_zero_length_text (ScopedMem.mk 0) 4096
           (set_heap {[ 4096 := [] ]} sample_world));
    [unfold nullptr; lia | simpl; lia | reflexivity].
Defined.

Lemma Create_without_assertion_witness :
  900 ≠ nullptr
  /\ ScopedComPtr.Create_with (fun _ => ret tt) 1 (ScopedComPtr.mk 900) 9
       sample_world
     = Done (false, ScopedComPtr.mk 900) sample_world.
Proof.
  split; [unfold nullptr; lia |].
  apply (Create_without_assertion 1 9 900 sample_world). unfold nullptr; lia.
Defined.
